(** * swift-kernel-primitives: the C shims CDarwinShim and CPosixShim

    The repository consists of two headers,
      Sources/CDarwinShim/include/shim.h
      Sources/CPosixShim/include/shim.h
    which define six [static inline] functions.  Two of them forward to an
    operating-system primitive ([shm_open], [fork]); four materialise a
    macro of <dlfcn.h> as a function.  Each header is wrapped in an include
    guard and in a target-platform conditional.

    The development has three layers:
    - C values: fixed-width integers as [Z] with their conversions written out;
    - programs: a free monad over the operating-system calls the shims make,
      run against an operating system that is a parameter;
    - the preprocessor: each header as a function on the state of a
      translation unit (defined macros, included system headers, function
      definitions). *)

From stdpp Require Import gmap strings list.
From Stdlib Require Import ZArith Lia.

(* set_solver clears hypotheses it has already used up *)
#[local] Set Warnings "-clear-no-such-hyp".

Local Open Scope Z_scope.

(** ** C values *)

(** [int], [int32_t] and [pid_t] are 32-bit two's-complement integers. *)
Definition int_min : Z := - 2 ^ 31.
Definition int_max : Z := 2 ^ 31 - 1.

Definition in_int (z : Z) : Prop := int_min <= z <= int_max.

(** Conversion to a 32-bit signed integer: reduction modulo 2^32 into
    [int_min .. int_max]. *)
Definition to_int (z : Z) : Z := (z + 2 ^ 31) mod 2 ^ 32 - 2 ^ 31.

(** Conversion to an unsigned integer of [w] bits (C11 6.3.1.3p2). *)
Definition to_unsigned (w : Z) (z : Z) : Z := z mod 2 ^ w.

Definition in_unsigned (w : Z) (z : Z) : Prop := 0 <= z < 2 ^ w.

(** [void *]: an address of 64 bits.  [(void * ) -2] is [to_ptr (-2)]. *)
Definition to_ptr (z : Z) : Z := to_unsigned 64 z.

(** [const char *]: the null pointer or a NUL-terminated string. *)
Definition cstr : Type := option string.

Definition pid : Type := Z.

(** ** The system headers

    The shims include <sys/mman.h>, <sys/types.h>, <fcntl.h>, <unistd.h> and
    <dlfcn.h>.  These belong to the platform, not to the repository.  What the
    shims use of them is taken as a parameter: one record for <dlfcn.h> as
    both platforms have it, one for what only the Darwin shim uses. *)

(** <dlfcn.h>, the part common to Darwin and Linux: two [void *] macros. *)
Record dlfcn_h : Type := Dlfcn {
  RTLD_DEFAULT : Z;
  RTLD_NEXT : Z
}.

(** The Darwin headers: the width of the unsigned type [mode_t]
    (<sys/types.h>), the [void *] macro [RTLD_MAIN_ONLY] and the [int] macro
    [RTLD_FIRST] (<dlfcn.h>), and the open flags and the error code (<fcntl.h>,
    <errno.h>) that a caller of [swift_shm_open] passes and reads. *)
Record darwin_h : Type := DarwinH {
  mode_t_bits : Z;
  RTLD_MAIN_ONLY : Z;
  RTLD_FIRST : Z;
  O_RDWR : Z;
  O_CREAT : Z;
  O_EXCL : Z;
  EEXIST : Z
}.

(** Conversion to [mode_t]. *)
Definition to_mode_t (h : darwin_h) (z : Z) : Z :=
  to_unsigned (mode_t_bits h) z.

Definition in_mode_t (h : darwin_h) (z : Z) : Prop :=
  in_unsigned (mode_t_bits h) z.

(** ** Programs over operating-system calls *)

(** The primitives the shims call.  [shm_open] is variadic,
    [int shm_open(const char *, int, ...)]: its third argument arrives after
    the default argument promotions, as an [int]. *)
Inductive call : Type -> Type :=
| shm_open (name : cstr) (oflag : Z) (mode : Z) : call Z
| fork : call Z.

(** A C function body: it returns a value, or performs a call and goes on
    with the call's result. *)
Inductive Prog (A : Type) : Type :=
| Ret (a : A)
| Call {X : Type} (c : call X) (k : X -> Prog A).

Arguments Ret {A} a.
Arguments Call {A X} c k.

Fixpoint bind {A B : Type} (p : Prog A) (f : A -> Prog B) : Prog B :=
  match p with
  | Ret a => f a
  | Call c k => Call c (fun x => bind (k x) f)
  end.

Definition perform {X : Type} (c : call X) : Prog X := Call c Ret.

#[global] Instance Prog_ret : MRet Prog := @Ret.
#[global] Instance Prog_bind : MBind Prog := fun A B f p => bind p f.

(** The calls a program performs, in order, with the calling process. *)
Inductive event : Type :=
| Ev (who : pid) {X : Type} (c : call X).

(** An operating system.  A call made by a process returns in a list of
    processes, each with its own return value: one for an ordinary call, two
    for a [fork] that succeeds.  [errno] is the error state of a process,
    [procs] the schedulable processes, [shm_objects] the names of the
    shared-memory objects that exist. *)
Record OS : Type := MkOS {
  world : Type;
  exec : forall X : Type, call X -> pid -> world -> list (pid * X) * world;
  errno : world -> pid -> Z;
  procs : world -> gset Z;
  shm_objects : world -> gset string
}.

Arguments exec _ {X} _ _ _.

(** What running a program gives: the processes in which it returns with
    their return values, the final state of the system, and the calls that
    were made. *)
Record outcome (W A : Type) : Type := Outcome {
  returns : list (pid * A);
  final : W;
  trace : list event
}.

Arguments Outcome {W A} returns final trace.
Arguments returns {W A} o.
Arguments final {W A} o.
Arguments trace {W A} o.

(** Running a program in process [self].  After a call, the rest of the
    program runs in every process in which the call returned, in the order
    the system lists them. *)
Fixpoint run (os : OS) {A : Type} (p : Prog A) (self : pid) (w : world os)
  : outcome (world os) A :=
  match p with
  | Ret a => Outcome [(self, a)] w []
  | Call c k =>
      let '(rets, w1) := exec os c self w in
      fold_left
        (fun acc qx =>
           let o := run os (k (snd qx)) (fst qx) (final acc) in
           Outcome (returns acc ++ returns o) (final o) (trace acc ++ trace o))
        rets (Outcome [] w1 [Ev self c])
  end.

(** The step of [run] after a call whose continuation is [k]: the rest of
    the program in one of the processes in which the call returned. *)
Definition resume (os : OS) {X A : Type} (k : X -> Prog A)
    (acc : outcome (world os) A) (qx : pid * X) : outcome (world os) A :=
  let o := run os (k (snd qx)) (fst qx) (final acc) in
  Outcome (returns acc ++ returns o) (final o) (trace acc ++ trace o).

(** Calling a primitive directly, as native code on the platform would. *)
Definition direct (os : OS) {X : Type} (c : call X) (self : pid) (w : world os)
  : outcome (world os) X :=
  Outcome (fst (exec os c self w)) (snd (exec os c self w)) [Ev self c].

(** ** Sources/CDarwinShim/include/shim.h: the functions *)

(** [static inline int swift_shm_open(const char *name, int oflag, mode_t mode)
     { return shm_open(name, oflag, mode); }]

    The arguments are converted to the parameter types on entry; [mode], a
    [mode_t], is promoted to [int] at the variadic call, which keeps its
    value. *)
Definition swift_shm_open (h : darwin_h) (name : cstr) (oflag mode : Z)
  : Prog Z :=
  let oflag := to_int oflag in
  let mode := to_mode_t h mode in
  r ← perform (shm_open name oflag mode); mret r.

(** [static inline pid_t swift_fork(void) { return fork(); }] *)
Definition swift_fork : Prog Z :=
  r ← perform fork; mret r.

(** [static inline void *swift_RTLD_MAIN_ONLY(void) { return RTLD_MAIN_ONLY; }] *)
Definition swift_RTLD_MAIN_ONLY (h : darwin_h) : Prog Z :=
  Ret (RTLD_MAIN_ONLY h).

(** [static inline int32_t swift_RTLD_FIRST(void) { return RTLD_FIRST; }]

    The macro is an integer constant; the return converts it to [int32_t]. *)
Definition swift_RTLD_FIRST (h : darwin_h) : Prog Z :=
  Ret (to_int (RTLD_FIRST h)).

(** ** Sources/CPosixShim/include/shim.h: the functions *)

(** [static inline void *swift_RTLD_DEFAULT(void) { return RTLD_DEFAULT; }] *)
Definition swift_RTLD_DEFAULT (d : dlfcn_h) : Prog Z :=
  Ret (RTLD_DEFAULT d).

(** [static inline void *swift_RTLD_NEXT(void) { return RTLD_NEXT; }] *)
Definition swift_RTLD_NEXT (d : dlfcn_h) : Prog Z :=
  Ret (RTLD_NEXT d).

(** A caller that calls the same function [n] times in a row and keeps the
    values it received, first call first. *)
Fixpoint call_many (f : Prog Z) (n : nat) : Prog (list Z) :=
  match n with
  | O => Ret []
  | S n => x ← f; xs ← call_many f n; mret (x :: xs)
  end.

(** ** The preprocessor: the two headers as functions on a translation unit *)

(** The six functions the headers define. *)
Inductive entry : Type :=
| Swift_shm_open
| Swift_fork
| Swift_RTLD_MAIN_ONLY
| Swift_RTLD_FIRST
| Swift_RTLD_DEFAULT
| Swift_RTLD_NEXT.

#[global] Instance entry_eq_dec : EqDecision entry.
Proof. solve_decision. Defined.

Definition entry_name (e : entry) : string :=
  match e with
  | Swift_shm_open => "swift_shm_open"
  | Swift_fork => "swift_fork"
  | Swift_RTLD_MAIN_ONLY => "swift_RTLD_MAIN_ONLY"
  | Swift_RTLD_FIRST => "swift_RTLD_FIRST"
  | Swift_RTLD_DEFAULT => "swift_RTLD_DEFAULT"
  | Swift_RTLD_NEXT => "swift_RTLD_NEXT"
  end.

Definition all_entries : list entry :=
  [Swift_shm_open; Swift_fork; Swift_RTLD_MAIN_ONLY; Swift_RTLD_FIRST;
   Swift_RTLD_DEFAULT; Swift_RTLD_NEXT].

(** The state of a translation unit while it is preprocessed: the macros
    that are defined, the system headers included so far, and the functions
    defined so far, in order.  A function defined twice is a redefinition,
    which the compiler refuses: a unit is well formed when [functions] has
    no duplicate. *)
Record tu : Type := TU {
  macros : gset string;
  sys_included : list string;
  functions : list entry
}.

Definition defined (m : string) (t : tu) : bool := bool_decide (m ∈ macros t).

Definition define (m : string) (t : tu) : tu :=
  TU ({[m]} ∪ macros t) (sys_included t) (functions t).

(** [#include <f>].  A system header declares the platform's own names,
    none of them one of the six functions or one of the macros the shims
    test; its inclusion is recorded and changes nothing else. *)
Definition include_sys (f : string) (t : tu) : tu :=
  TU (macros t) (sys_included t ++ [f]) (functions t).

Definition define_function (e : entry) (t : tu) : tu :=
  TU (macros t) (sys_included t) (functions t ++ [e]).

(** [#if defined(__APPLE__)] *)
Definition CDarwinShim_condition (t : tu) : bool := defined "__APPLE__" t.

(** [#if defined(__APPLE__) || defined(__linux__)] *)
Definition CPosixShim_condition (t : tu) : bool :=
  defined "__APPLE__" t || defined "__linux__" t.

(** Sources/CDarwinShim/include/shim.h *)
Definition CDarwinShim_h (t : tu) : tu :=
  if defined "CDARWIN_SHIM_H" t then t
  else
    let t := define "CDARWIN_SHIM_H" t in
    if CDarwinShim_condition t then
      let t := include_sys "sys/mman.h" t in
      let t := include_sys "sys/types.h" t in
      let t := include_sys "fcntl.h" t in
      let t := include_sys "unistd.h" t in
      let t := include_sys "dlfcn.h" t in
      let t := define_function Swift_shm_open t in
      let t := define_function Swift_fork t in
      let t := define_function Swift_RTLD_MAIN_ONLY t in
      define_function Swift_RTLD_FIRST t
    else t.

(** Sources/CPosixShim/include/shim.h *)
Definition CPosixShim_h (t : tu) : tu :=
  if defined "CPOSIX_SHIM_H" t then t
  else
    let t := define "CPOSIX_SHIM_H" t in
    if CPosixShim_condition t then
      let t := include_sys "dlfcn.h" t in
      let t := define_function Swift_RTLD_DEFAULT t in
      define_function Swift_RTLD_NEXT t
    else t.

Inductive header : Type := CDarwinShim | CPosixShim.

Definition include (hd : header) (t : tu) : tu :=
  match hd with
  | CDarwinShim => CDarwinShim_h t
  | CPosixShim => CPosixShim_h t
  end.

(** The platform tag and the macros the compiler predefines for it. *)
Inductive platform : Type := Darwin | Linux | Unsupported.

Definition predefined (p : platform) : gset string :=
  match p with
  | Darwin => {["__APPLE__"; "__MACH__"]}
  | Linux => {["__linux__"; "__gnu_linux__"]}
  | Unsupported => ∅
  end.

(** A translation unit of the platform that includes the given headers, in
    order (a header may occur more than once). *)
Definition compile (p : platform) (hs : list header) : tu :=
  fold_left (fun t hd => include hd t) hs (TU (predefined p) [] []).

(** Name lookup at build time: the function a name refers to, or [None]
    for an undeclared identifier, which stops the build. *)
Definition resolve (t : tu) (name : string) : option entry :=
  find (fun e => bool_decide (entry_name e = name)) (functions t).

(** ** The compiled interface, by platform *)

#[global] Instance header_eq_dec : EqDecision header.
Proof. solve_decision. Defined.

#[global] Instance platform_eq_dec : EqDecision platform.
Proof. solve_decision. Defined.

Definition CDarwinShim_functions : list entry :=
  [Swift_shm_open; Swift_fork; Swift_RTLD_MAIN_ONLY; Swift_RTLD_FIRST].

Definition CPosixShim_functions : list entry :=
  [Swift_RTLD_DEFAULT; Swift_RTLD_NEXT].

(** The interface as the specification describes it: the Darwin-only entry
    points on Darwin, the shared ones on Darwin and on Linux, each group
    when its header is among those included. *)
Definition interface (p : platform) (hs : list header) : list entry :=
  (if bool_decide (CDarwinShim ∈ hs) && bool_decide (p = Darwin)
   then CDarwinShim_functions else [])
  ++ (if bool_decide (CPosixShim ∈ hs) && bool_decide (p <> Unsupported)
      then CPosixShim_functions else []).

(** What holds of a translation unit of platform [p] once the headers
    [seen] have been included: the platform macros are the compiler's, a
    guard is defined exactly when its header was included, and the functions
    are those of the interface. *)
Definition tu_inv (p : platform) (seen : list header) (t : tu) : Prop :=
  ("__APPLE__" ∈ macros t <-> p = Darwin)
  /\ ("__linux__" ∈ macros t <-> p = Linux)
  /\ ("CDARWIN_SHIM_H" ∈ macros t <-> CDarwinShim ∈ seen)
  /\ ("CPOSIX_SHIM_H" ∈ macros t <-> CPosixShim ∈ seen)
  /\ functions t ≡ₚ interface p seen.

(** ** The platforms' constants *)

(** Modelled from the spec: the macros [RTLD_DEFAULT] and [RTLD_NEXT] of the
    platform's <dlfcn.h>, which the sources name and do not define.  The spec
    calls them platform-defined sentinel constants; the values are those of
    Apple's header ([(void * ) -2], [(void * ) -1]) and of glibc's
    ([(void * ) 0], [(void * ) -1l]). *)
Definition dlfcn_of (p : platform) : option dlfcn_h :=
  match p with
  | Darwin => Some (Dlfcn (to_ptr (-2)) (to_ptr (-1)))
  | Linux => Some (Dlfcn (to_ptr 0) (to_ptr (-1)))
  | Unsupported => None
  end.

(** Modelled from the spec: the Darwin headers, which are not among the
    sources.  [mode_t] is [__uint16_t]; [RTLD_MAIN_ONLY] is [(void * ) -5] and
    [RTLD_FIRST] is [0x100]; [O_RDWR], [O_CREAT], [O_EXCL] are [0x0002],
    [0x0200], [0x0800]; [EEXIST] is 17. *)
Definition darwin_headers : darwin_h :=
  DarwinH 16 (to_ptr (-5)) 256 2 512 2048 17.

(** ** What POSIX promises of the two primitives

    The primitives are the platform's; the shims are verified against any
    operating system, and these two predicates state the part of the POSIX
    contract that the scenarios of the specification rest on. *)

(** [oflag & flag] is not zero. *)
Definition has_flag (flag oflag : Z) : bool := negb (Z.land oflag flag =? 0).

(** [fork]: on success one process is added, the parent receives its
    identifier, which is positive, and the child receives 0; on failure the
    caller receives -1, its error state is set, and no process is added. *)
Definition posix_fork (os : OS) : Prop :=
  forall (self : pid) (w : world os),
    self ∈ procs os w ->
    let rets := fst (exec os fork self w) in
    let w' := snd (exec os fork self w) in
    (exists child : pid,
        rets = [(self, child); (child, 0)] /\ 0 < child /\
        (child ∉ procs os w) /\ procs os w' = {[child]} ∪ procs os w)
    \/ (rets = [(self, -1)] /\ procs os w' = procs os w /\ 0 < errno os w' self).

(** [shm_open]: it returns once, to the caller; when it succeeds the object
    exists afterwards; with [O_CREAT] and [O_EXCL] both set it fails with
    [EEXIST] when the object exists already. *)
Definition posix_shm_open (os : OS) (h : darwin_h) : Prop :=
  forall (name : string) (oflag mode : Z) (self : pid) (w : world os),
    let rets := fst (exec os (shm_open (Some name) oflag mode) self w) in
    let w' := snd (exec os (shm_open (Some name) oflag mode) self w) in
    (exists r : Z, rets = [(self, r)]) /\
    (rets <> [(self, -1)] -> name ∈ shm_objects os w') /\
    (has_flag (O_CREAT h) oflag = true -> has_flag (O_EXCL h) oflag = true ->
     name ∈ shm_objects os w ->
     rets = [(self, -1)] /\ errno os w' self = EEXIST h).

(** ** A reference operating system

    A small system that obeys the two contracts, on which the theorems are
    exercised at concrete inputs: a process table with a limit, a name space
    of shared-memory objects, a count of open descriptors and the error
    state of every process. *)
Record ref_world : Type := RefWorld {
  ref_procs : gset Z;
  ref_max_procs : nat;
  ref_shm : gset string;
  ref_open_fds : nat;
  ref_errnos : gmap Z Z
}.

Definition ref_errno (w : ref_world) (p : pid) : Z :=
  default 0 (ref_errnos w !! p).

Definition ref_fail (code : Z) (self : pid) (w : ref_world)
  : list (pid * Z) * ref_world :=
  ([(self, -1)],
   RefWorld (ref_procs w) (ref_max_procs w) (ref_shm w) (ref_open_fds w)
            (<[self := code]> (ref_errnos w))).

(** The lowest descriptor not yet in use, after stdin, stdout and stderr. *)
Definition ref_new_fd (shm : gset string) (self : pid) (w : ref_world)
  : list (pid * Z) * ref_world :=
  ([(self, 3 + Z.of_nat (ref_open_fds w))],
   RefWorld (ref_procs w) (ref_max_procs w) shm (S (ref_open_fds w))
            (ref_errnos w)).

Definition ref_ENOENT : Z := 2.
Definition ref_EINVAL : Z := 22.
Definition ref_EAGAIN : Z := 35.

Definition ref_shm_open (h : darwin_h) (name : cstr) (oflag mode : Z)
    (self : pid) (w : ref_world) : list (pid * Z) * ref_world :=
  match name with
  | None => ref_fail ref_EINVAL self w
  | Some n =>
      if bool_decide (n ∈ ref_shm w) then
        if has_flag (O_CREAT h) oflag && has_flag (O_EXCL h) oflag
        then ref_fail (EEXIST h) self w
        else ref_new_fd (ref_shm w) self w
      else
        if has_flag (O_CREAT h) oflag
        then ref_new_fd ({[n]} ∪ ref_shm w) self w
        else ref_fail ref_ENOENT self w
  end.

(** A process identifier above all those in use. *)
Definition ref_fresh_pid (ps : gset Z) : Z :=
  1 + foldr Z.max 0 (elements ps).

Definition ref_fork (self : pid) (w : ref_world)
  : list (pid * Z) * ref_world :=
  if bool_decide (size (ref_procs w) < ref_max_procs w)%nat then
    let child := ref_fresh_pid (ref_procs w) in
    ([(self, child); (child, 0)],
     RefWorld ({[child]} ∪ ref_procs w) (ref_max_procs w) (ref_shm w)
              (ref_open_fds w)
              (<[child := ref_errno w self]> (ref_errnos w)))
  else ref_fail ref_EAGAIN self w.

Definition ref_exec (h : darwin_h) (X : Type) (c : call X) (self : pid)
    (w : ref_world) : list (pid * X) * ref_world :=
  match c in call T return list (pid * T) * ref_world with
  | shm_open name oflag mode => ref_shm_open h name oflag mode self w
  | fork => ref_fork self w
  end.

Definition ref_os (h : darwin_h) : OS :=
  MkOS ref_world (ref_exec h) ref_errno ref_procs ref_shm.

(** One process, no shared-memory object, room for four processes. *)
Definition ref_boot : ref_world := RefWorld {[1]} 4 ∅ 0 ∅.

(** The same system with its process table full. *)
Definition ref_full : ref_world := RefWorld {[1]} 1 ∅ 0 ∅.

(** ** The two headers side by side *)

(** The include guard of each header. *)
Definition guard (hd : header) : string :=
  match hd with
  | CDarwinShim => "CDARWIN_SHIM_H"
  | CPosixShim => "CPOSIX_SHIM_H"
  end.

(** The platform condition of each header. *)
Definition condition (hd : header) (t : tu) : bool :=
  match hd with
  | CDarwinShim => CDarwinShim_condition t
  | CPosixShim => CPosixShim_condition t
  end.

(** The system headers each header includes, in order. *)
Definition system_headers (hd : header) : list string :=
  match hd with
  | CDarwinShim => ["sys/mman.h"; "sys/types.h"; "fcntl.h"; "unistd.h"; "dlfcn.h"]
  | CPosixShim => ["dlfcn.h"]
  end.

(** The functions each header defines, in order. *)
Definition functions_of (hd : header) : list entry :=
  match hd with
  | CDarwinShim => CDarwinShim_functions
  | CPosixShim => CPosixShim_functions
  end.

(** The header that defines a function. *)
Definition header_of (e : entry) : header :=
  match e with
  | Swift_shm_open | Swift_fork | Swift_RTLD_MAIN_ONLY | Swift_RTLD_FIRST =>
      CDarwinShim
  | Swift_RTLD_DEFAULT | Swift_RTLD_NEXT => CPosixShim
  end.

(** Including a list of headers, in order, in a unit that may already hold
    macros, inclusions and functions of its own. *)
Definition include_all (hs : list header) (t : tu) : tu :=
  fold_left (fun t hd => include hd t) hs t.

(** What header [hd] adds to unit [t] when the headers [hs] are included:
    its part (functions or system headers) when it is among [hs], its guard
    is not yet defined in [t] and its platform condition holds in [t]. *)
Definition contribution {A : Type} (part : header -> list A)
    (hs : list header) (t : tu) (hd : header) : list A :=
  if bool_decide (hd ∈ hs) && negb (defined (guard hd) t) && condition hd t
  then part hd else [].

(** The primitive [c] called directly [n] times in a row by [self]: the
    state after the last call. *)
Fixpoint direct_many (os : OS) {X : Type} (c : call X) (n : nat) (self : pid)
    (w : world os) : world os :=
  match n with
  | O => w
  | S n => direct_many os c n self (snd (exec os c self w))
  end.

(** The call [c] returns once, to its caller, in every state. *)
Definition returns_once (os : OS) {X : Type} (c : call X) : Prop :=
  forall (self : pid) (w : world os),
    exists r : X, fst (exec os c self w) = [(self, r)].

(** A Darwin unit in which the guard of the Darwin header is already
    defined, as after [#define CDARWIN_SHIM_H] in the including file. *)
Definition darwin_unit_with_guard : tu :=
  TU ({["CDARWIN_SHIM_H"]} ∪ predefined Darwin) [] [].

(** * Properties *)

(** ** Conversions *)

Lemma to_int_id (z : Z) : in_int z -> to_int z = z.
Proof.
  unfold in_int, int_min, int_max, to_int. intros Hz.
  rewrite Z.mod_small; lia.
Qed.

Lemma to_int_range (z : Z) : in_int (to_int z).
Proof.
  unfold in_int, int_min, int_max, to_int.
  pose proof (Z.mod_pos_bound (z + 2 ^ 31) (2 ^ 32)). lia.
Qed.

Lemma to_unsigned_id (w z : Z) : in_unsigned w z -> to_unsigned w z = z.
Proof. unfold in_unsigned, to_unsigned. intros Hz. apply Z.mod_small, Hz. Qed.

Lemma to_mode_t_id (h : darwin_h) (z : Z) : in_mode_t h z -> to_mode_t h z = z.
Proof. apply to_unsigned_id. Qed.

(** ** Running programs *)

Section Run.
Variable os : OS.

Lemma run_call {X A : Type} (c : call X) (k : X -> Prog A) self w :
  run os (Call c k) self w =
  fold_left (resume os k) (fst (exec os c self w))
            (Outcome [] (snd (exec os c self w)) [Ev self c]).
Proof. simpl. destruct (exec os c self w) as [rets w1]. reflexivity. Qed.

(** A continuation that only returns adds nothing: the call's returns are
    the program's. *)
Lemma resume_ret {X : Type} (rets : list (pid * X)) acc (w1 : world os) tr :
  fold_left (resume os Ret) rets (Outcome acc w1 tr) = Outcome (acc ++ rets) w1 tr.
Proof.
  revert acc. induction rets as [|[q x] rets IH]; intros acc; simpl.
  - by rewrite app_nil_r.
  - unfold resume at 2. simpl. rewrite app_nil_r, IH, <- app_assoc.
    reflexivity.
Qed.

Lemma run_perform {X : Type} (c : call X) self w :
  run os (x ← perform c; mret x) self w = direct os c self w.
Proof.
  change (x ← perform c; mret x) with (Call c (fun x : X => Ret x)).
  rewrite run_call. apply (resume_ret _ []).
Qed.

(** Post-processing the value a program returns changes neither the final
    state nor the calls made. *)
Lemma resume_map {X A B : Type} (g : A -> B) (k : X -> Prog A)
    (rets : list (pid * X)) :
  (forall x self w,
      run os (bind (k x) (fun a => Ret (g a))) self w =
      Outcome (map (fun qa => (fst qa, g (snd qa))) (returns (run os (k x) self w)))
              (final (run os (k x) self w)) (trace (run os (k x) self w))) ->
  forall acc : outcome (world os) A,
    fold_left (resume os (fun x => bind (k x) (fun a => Ret (g a)))) rets
      (Outcome (map (fun qa => (fst qa, g (snd qa))) (returns acc))
               (final acc) (trace acc)) =
    let o := fold_left (resume os k) rets acc in
    Outcome (map (fun qa => (fst qa, g (snd qa))) (returns o)) (final o) (trace o).
Proof.
  intros Hk. induction rets as [|[q x] rets IH]; intros acc; simpl.
  - reflexivity.
  - rewrite <- IH. f_equal. unfold resume. simpl.
    rewrite Hk, map_app. reflexivity.
Qed.

Lemma run_bind_ret {A B : Type} (g : A -> B) (p : Prog A) self w :
  run os (bind p (fun a => Ret (g a))) self w =
  Outcome (map (fun qa => (fst qa, g (snd qa))) (returns (run os p self w)))
          (final (run os p self w)) (trace (run os p self w)).
Proof.
  revert self w. induction p as [a|X c k IH]; intros self w.
  - reflexivity.
  - change (bind (Call c k) (fun a => Ret (g a)))
      with (Call c (fun x => bind (k x) (fun a => Ret (g a)))).
    rewrite !run_call.
    apply (resume_map g k _ IH (Outcome [] _ _)).
Qed.

(** A function that only returns [v], called [n] times. *)
Lemma run_call_many_ret (v : Z) (n : nat) self w :
  run os (call_many (Ret v) n) self w = Outcome [(self, replicate n v)] w [].
Proof.
  induction n as [|n IH].
  - reflexivity.
  - change (call_many (Ret v) (S n))
      with (bind (call_many (Ret v) n) (fun xs => Ret (v :: xs))).
    rewrite (run_bind_ret (fun xs => v :: xs)), IH. reflexivity.
Qed.
End Run.

(** Membership of a range of constants, by evaluation. *)
Ltac in_range := vm_compute; intuition discriminate.

(** ** The forwarding wrappers *)

(** C1.  For every name, every [int] oflag and every [mode_t] mode, running
    [swift_shm_open] gives what the direct call [shm_open(name, oflag, mode)]
    gives: the same return value in the same process, the same final state
    of the system (the error state of every process included), and a trace
    of exactly that one call with the arguments as they were passed.
    [swift_fork] and the direct call [fork()] agree in the same way. *)
Theorem swift_wrappers_forward (os : OS) (h : darwin_h) (name : cstr)
    (oflag mode : Z) (self : pid) (w : world os) :
  in_int oflag -> in_mode_t h mode ->
  run os (swift_shm_open h name oflag mode) self w
    = direct os (shm_open name oflag mode) self w
  /\ run os swift_fork self w = direct os fork self w.
Proof.
  intros Hflag Hmode. split.
  - unfold swift_shm_open. rewrite run_perform.
    by rewrite (to_int_id _ Hflag), (to_mode_t_id _ _ Hmode).
  - apply run_perform.
Qed.

Lemma swift_wrappers_forward_witness :
  in_int 514 /\ in_mode_t darwin_headers 384 /\
  (run (ref_os darwin_headers)
       (swift_shm_open darwin_headers (Some "/test-seg") 514 384) 1 ref_boot
     = direct (ref_os darwin_headers) (shm_open (Some "/test-seg") 514 384) 1 ref_boot
   /\ run (ref_os darwin_headers) swift_fork 1 ref_boot
     = direct (ref_os darwin_headers) fork 1 ref_boot).
Proof.
  split; [in_range | split; [in_range |]].
  apply swift_wrappers_forward; in_range.
Defined.

(** The same holds inside any caller: a program that goes on with the
    wrapper's result is the program that goes on with the primitive's. *)
Lemma swift_wrappers_in_context (os : OS) (h : darwin_h) {A : Type}
    (name : cstr) (oflag mode : Z) (k : Z -> Prog A) (self : pid) (w : world os) :
  run os (r ← swift_shm_open h name oflag mode; k r) self w
    = run os (r ← perform (shm_open name (to_int oflag) (to_mode_t h mode)); k r)
          self w
  /\ run os (r ← swift_fork; k r) self w = run os (r ← perform fork; k r) self w.
Proof. split; reflexivity. Qed.

(** C5.  A wrapper fails exactly when the primitive it calls fails: -1 is
    returned to the caller if and only if the primitive returned -1, the
    state the wrapper leaves (the error state of every process with it) is
    the one the primitive left, and the primitive is the only call made, so
    no other error can arise. *)
Theorem swift_wrappers_errors (os : OS) (h : darwin_h) (name : cstr)
    (oflag mode : Z) (self : pid) (w : world os) :
  let c := shm_open name (to_int oflag) (to_mode_t h mode) in
  let o := run os (swift_shm_open h name oflag mode) self w in
  let f := run os swift_fork self w in
  ((self, -1) ∈ returns o <-> (self, -1) ∈ fst (exec os c self w))
  /\ final o = snd (exec os c self w)
  /\ (forall q : pid, errno os (final o) q = errno os (snd (exec os c self w)) q)
  /\ trace o = [Ev self c]
  /\ ((self, -1) ∈ returns f <-> (self, -1) ∈ fst (exec os fork self w))
  /\ final f = snd (exec os fork self w)
  /\ (forall q : pid, errno os (final f) q = errno os (snd (exec os fork self w)) q)
  /\ trace f = [Ev self fork].
Proof.
  intros c o f.
  assert (Ho : o = direct os c self w) by apply run_perform.
  assert (Hf : f = direct os fork self w) by apply run_perform.
  rewrite Ho, Hf. simpl. repeat split; auto.
Qed.

(** C9.  Whatever integer is supplied as mode, the mode that reaches
    [shm_open] is that integer modulo 2^w, with w the width of [mode_t], and
    the call is made all the same: nothing is rejected.  On Darwin w is 16,
    so a mode and the mode plus 65536 cannot be told apart. *)
Theorem swift_shm_open_mode_wraps (os : OS) (h : darwin_h) (name : cstr)
    (oflag mode : Z) (self : pid) (w : world os) :
  run os (swift_shm_open h name oflag mode) self w
    = direct os (shm_open name (to_int oflag) (mode mod 2 ^ mode_t_bits h)) self w
  /\ mode_t_bits darwin_headers = 16
  /\ run os (swift_shm_open darwin_headers name oflag (mode + 65536)) self w
    = run os (swift_shm_open darwin_headers name oflag mode) self w.
Proof.
  split; [apply run_perform | split; [reflexivity |]].
  unfold swift_shm_open, to_mode_t, to_unsigned. simpl mode_t_bits.
  change 65536 with (1 * 2 ^ 16). by rewrite Z.mod_add.
Qed.

(** ** The accessors *)

(** C8.  The four accessors cannot fail.  On every operating system and in
    every state each returns, once, to its caller; it makes no call (the
    trace is empty) and leaves the state, error state included, as it was.
    The value does not depend on the system or on the state, so no value
    reports a failure. *)
Theorem accessors_total (os : OS) (d : dlfcn_h) (h : darwin_h) (self : pid)
    (w : world os) :
  run os (swift_RTLD_DEFAULT d) self w = Outcome [(self, RTLD_DEFAULT d)] w []
  /\ run os (swift_RTLD_NEXT d) self w = Outcome [(self, RTLD_NEXT d)] w []
  /\ run os (swift_RTLD_MAIN_ONLY h) self w = Outcome [(self, RTLD_MAIN_ONLY h)] w []
  /\ run os (swift_RTLD_FIRST h) self w = Outcome [(self, to_int (RTLD_FIRST h))] w [].
Proof. repeat split. Qed.

(** The value an accessor has after any program: in every process in which
    the program returned the accessor returns [v], and the state and the
    calls made are the program's own. *)
Lemma run_then_accessor (os : OS) {B : Type} (before : Prog B) (v : Z) self w :
  run os (_ ← before; Ret v) self w =
  Outcome (map (fun qb => (fst qb, v)) (returns (run os before self w)))
          (final (run os before self w)) (trace (run os before self w)).
Proof. apply (run_bind_ret os (fun _ => v)). Qed.

(** C2.  The four accessors are pure and deterministic.  After any sequence
    of earlier calls [before], in every process in which it returned, each
    accessor returns the value of its macro, and the state and trace are
    those of [before] alone; called [n] times in a row an accessor returns
    the same value [n] times.  [RTLD_FIRST] is an [int] constant. *)
Theorem accessors_pure_deterministic (os : OS) (d : dlfcn_h) (h : darwin_h)
    (B : Type) (before : Prog B) (n : nat) (self : pid) (w : world os) :
  in_int (RTLD_FIRST h) ->
  let o := run os before self w in
  let after (f : Prog Z) (v : Z) :=
    run os (_ ← before; f) self w
      = Outcome (map (fun qb => (fst qb, v)) (returns o)) (final o) (trace o)
    /\ run os (call_many f n) self w = Outcome [(self, replicate n v)] w [] in
  after (swift_RTLD_DEFAULT d) (RTLD_DEFAULT d)
  /\ after (swift_RTLD_NEXT d) (RTLD_NEXT d)
  /\ after (swift_RTLD_MAIN_ONLY h) (RTLD_MAIN_ONLY h)
  /\ after (swift_RTLD_FIRST h) (RTLD_FIRST h).
Proof.
  intros Hfirst o after. unfold after, o.
  unfold swift_RTLD_DEFAULT, swift_RTLD_NEXT, swift_RTLD_MAIN_ONLY,
    swift_RTLD_FIRST.
  rewrite (to_int_id _ Hfirst).
  repeat split; first [apply run_then_accessor | apply run_call_many_ret].
Qed.

Lemma accessors_pure_deterministic_witness :
  in_int (RTLD_FIRST darwin_headers) /\
  run (ref_os darwin_headers)
      (_ ← swift_fork; swift_RTLD_FIRST darwin_headers) 1 ref_boot
    = Outcome [(1, 256); (2, 256)]
        (final (run (ref_os darwin_headers) swift_fork 1 ref_boot))
        [Ev 1 fork]
  /\ run (ref_os darwin_headers)
         (call_many (swift_RTLD_FIRST darwin_headers) 3) 1 ref_boot
    = Outcome [(1, [256; 256; 256])] ref_boot [].
Proof.
  split; [in_range |].
  pose proof (accessors_pure_deterministic (ref_os darwin_headers)
                (Dlfcn 0 0) darwin_headers Z swift_fork 3 1 ref_boot) as H.
  destruct H as (_ & _ & _ & H1 & H2); [in_range |].
  split; [exact H1 | exact H2].
Defined.

(** ** The reference system obeys the contracts *)

Lemma foldr_max_ge (l : list Z) (x : Z) : x ∈ l -> x <= foldr Z.max 0 l.
Proof.
  induction l as [|y l IH]; intros Hx.
  - by apply elem_of_nil in Hx.
  - simpl. apply elem_of_cons in Hx as [->|Hx]; [lia |].
    specialize (IH Hx). lia.
Qed.

Lemma foldr_max_nonneg (l : list Z) : 0 <= foldr Z.max 0 l.
Proof. induction l as [|y l IH]; simpl; lia. Qed.

Lemma ref_fresh_pid_positive (ps : gset Z) : 0 < ref_fresh_pid ps.
Proof. unfold ref_fresh_pid. pose proof (foldr_max_nonneg (elements ps)). lia. Qed.

Lemma ref_fresh_pid_fresh (ps : gset Z) : ref_fresh_pid ps ∉ ps.
Proof.
  intros Hin. apply elem_of_elements, foldr_max_ge in Hin.
  unfold ref_fresh_pid in Hin. lia.
Qed.

Lemma ref_errno_fail (code : Z) (self : pid) (w : ref_world) :
  ref_errno (snd (ref_fail code self w)) self = code.
Proof. unfold ref_errno, ref_fail. simpl. by rewrite lookup_insert_eq. Qed.

Lemma ref_os_posix_fork (h : darwin_h) : posix_fork (ref_os h).
Proof.
  intros self w _. simpl. unfold ref_fork.
  case_bool_decide.
  - left. exists (ref_fresh_pid (ref_procs w)). simpl.
    split; [reflexivity |].
    split; [apply ref_fresh_pid_positive |].
    split; [apply ref_fresh_pid_fresh | reflexivity].
  - right. split; [reflexivity |]. split; [reflexivity |].
    rewrite ref_errno_fail. reflexivity.
Qed.

Lemma ref_os_posix_shm_open (h : darwin_h) : posix_shm_open (ref_os h) h.
Proof.
  intros name oflag mode self w. simpl. unfold ref_shm_open.
  case_bool_decide as Hin.
  - destruct (has_flag (O_CREAT h) oflag) eqn:Hc;
      destruct (has_flag (O_EXCL h) oflag) eqn:He; simpl;
      (split; [eauto |]); (split; [intros _; exact Hin |]);
      try discriminate.
    intros _ _ _. split; [reflexivity |].
    apply (ref_errno_fail (EEXIST h) self w).
  - destruct (has_flag (O_CREAT h) oflag) eqn:Hc; simpl;
      (split; [eauto |]); split.
    + intros _. set_solver.
    + intros _ _ Hex. done.
    + intros Hne. done.
    + intros _ _ Hex. done.
Qed.

(** ** The scenarios of the specification *)

(** C4.  On a system whose [fork] obeys POSIX, one call of [swift_fork] by a
    process makes exactly one call of [fork] and ends in one of two ways.
    Either it returns in two processes, in the caller with the identifier of
    the child, which is positive, and in the child with 0, and the child is
    the one process added to the schedulable processes; or it returns -1 to
    the caller alone, with the caller's error state set and the processes
    unchanged. *)
Theorem swift_fork_once (os : OS) (self : pid) (w : world os) :
  posix_fork os ->
  self ∈ procs os w ->
  let o := run os swift_fork self w in
  trace o = [Ev self fork] /\
  ((exists child : pid,
       returns o = [(self, child); (child, 0)] /\ 0 < child /\ child <> self /\
       (child ∉ procs os w) /\
       procs os (final o) = {[child]} ∪ procs os w /\
       size (procs os (final o)) = S (size (procs os w)))
   \/ (returns o = [(self, -1)] /\ procs os (final o) = procs os w /\
       0 < errno os (final o) self)).
Proof.
  intros Hposix Hself o. unfold o, swift_fork. rewrite run_perform.
  split; [reflexivity |]. simpl.
  destruct (Hposix self w Hself) as [(child & Hr & Hpos & Hnew & Hps)|Hfail].
  - left. exists child. repeat split; try assumption.
    + intros ->. contradiction.
    + rewrite Hps, size_union by (apply disjoint_singleton_l, Hnew).
      by rewrite size_singleton.
  - right. exact Hfail.
Qed.

Lemma swift_fork_once_witness :
  let o := run (ref_os darwin_headers) swift_fork 1 ref_boot in
  trace o = [Ev 1 fork] /\
  ((exists child : pid,
       returns o = [(1, child); (child, 0)] /\ 0 < child /\ child <> 1 /\
       (child ∉ procs (ref_os darwin_headers) ref_boot) /\
       procs (ref_os darwin_headers) (final o)
         = {[child]} ∪ procs (ref_os darwin_headers) ref_boot /\
       size (procs (ref_os darwin_headers) (final o))
         = S (size (procs (ref_os darwin_headers) ref_boot)))
   \/ (returns o = [(1, -1)] /\
       procs (ref_os darwin_headers) (final o)
         = procs (ref_os darwin_headers) ref_boot /\
       0 < errno (ref_os darwin_headers) (final o) 1)).
Proof.
  apply (swift_fork_once (ref_os darwin_headers) 1 ref_boot).
  - apply ref_os_posix_fork.
  - simpl. set_solver.
Defined.

(** Exclusive creation after a successful open of the same name, for any
    headers, name, flags and modes. *)
Lemma shm_open_exclusive_after_open (os : OS) (h : darwin_h) (name : string)
    (f1 f2 m1 m2 : Z) (self : pid) (w : world os) :
  posix_shm_open os h ->
  has_flag (O_CREAT h) (to_int f2) = true ->
  has_flag (O_EXCL h) (to_int f2) = true ->
  let first := run os (swift_shm_open h (Some name) f1 m1) self w in
  let second := run os (swift_shm_open h (Some name) f2 m2) self (final first) in
  returns first <> [(self, -1)] ->
  returns second = [(self, -1)] /\ errno os (final second) self = EEXIST h.
Proof.
  intros Hposix Hc He first second. unfold second, first, swift_shm_open.
  rewrite !run_perform. simpl. intros Hok.
  destruct (Hposix name (to_int f1) (to_mode_t h m1) self w) as (_ & Hexists & _).
  specialize (Hexists Hok).
  destruct (Hposix name (to_int f2) (to_mode_t h m2) self
              (snd (exec os (shm_open (Some name) (to_int f1) (to_mode_t h m1)) self w)))
    as (_ & _ & Hexcl).
  exact (Hexcl Hc He Hexists).
Qed.

(** C7.  On a system whose [shm_open] obeys POSIX: when
    [swift_shm_open("/test-seg", O_CREAT|O_RDWR, 0600)] succeeds, the call
    that follows it with the same name and mode and the flags
    [O_CREAT|O_EXCL|O_RDWR] returns -1 with the error state [EEXIST]. *)
Theorem swift_shm_open_exclusive_after_create (os : OS) (self : pid)
    (w : world os) :
  let h := darwin_headers in
  let first :=
    run os (swift_shm_open h (Some "/test-seg")
              (Z.lor (O_CREAT h) (O_RDWR h)) 384) self w in
  let second :=
    run os (swift_shm_open h (Some "/test-seg")
              (Z.lor (Z.lor (O_CREAT h) (O_EXCL h)) (O_RDWR h)) 384)
        self (final first) in
  posix_shm_open os h ->
  returns first <> [(self, -1)] ->
  returns second = [(self, -1)] /\ errno os (final second) self = EEXIST h.
Proof.
  intros h first second Hposix Hok.
  apply (shm_open_exclusive_after_open os h "/test-seg" _ _ 384 384 self w Hposix);
    [reflexivity | reflexivity | exact Hok].
Qed.

Lemma swift_shm_open_exclusive_after_create_witness :
  let os := ref_os darwin_headers in
  let first :=
    run os (swift_shm_open darwin_headers (Some "/test-seg") 514 384) 1 ref_boot in
  let second :=
    run os (swift_shm_open darwin_headers (Some "/test-seg") 2562 384) 1
        (final first) in
  returns first = [(1, 3)] /\
  returns second = [(1, -1)] /\ errno os (final second) 1 = 17.
Proof.
  split; [reflexivity |].
  apply (swift_shm_open_exclusive_after_create (ref_os darwin_headers) 1 ref_boot).
  - apply ref_os_posix_shm_open.
  - vm_compute. discriminate.
Defined.

(** ** The headers *)

Lemma entry_name_inj (e1 e2 : entry) : entry_name e1 = entry_name e2 -> e1 = e2.
Proof. destruct e1, e2; intros H; first [reflexivity | discriminate H]. Qed.

(** Name lookup finds a function exactly when the unit defines it. *)
Lemma resolve_defined (t : tu) (e : entry) :
  resolve t (entry_name e) = if bool_decide (e ∈ functions t) then Some e else None.
Proof.
  unfold resolve. induction (functions t) as [|a l IH]; simpl.
  - reflexivity.
  - destruct (decide (entry_name a = entry_name e)) as [Hname|Hname].
    + rewrite (bool_decide_eq_true_2 _ Hname).
      apply entry_name_inj in Hname as ->.
      rewrite bool_decide_eq_true_2 by left. reflexivity.
    + rewrite (bool_decide_eq_false_2 _ Hname), IH.
      assert (a <> e) by congruence.
      destruct (decide (e ∈ l)) as [Hin|Hin].
      * rewrite !bool_decide_eq_true_2; [reflexivity | by right | done].
      * rewrite !bool_decide_eq_false_2; [reflexivity | | done].
        intros [->|?]%elem_of_cons; done.
Qed.

Lemma tu_inv_start (p : platform) : tu_inv p [] (TU (predefined p) [] []).
Proof.
  unfold tu_inv, interface. simpl.
  repeat split; try (destruct p; set_solver).
Qed.

Lemma interface_app (p : platform) (seen : list header) (hd : header) :
  interface p (seen ++ [hd]) =
  (if (bool_decide (CDarwinShim ∈ seen) || bool_decide (hd = CDarwinShim))
      && bool_decide (p = Darwin)
   then CDarwinShim_functions else [])
  ++ (if (bool_decide (CPosixShim ∈ seen) || bool_decide (hd = CPosixShim))
         && bool_decide (p <> Unsupported)
      then CPosixShim_functions else []).
Proof.
  unfold interface.
  assert (Hmem : forall x : header,
             bool_decide (x ∈ seen ++ [hd])
             = bool_decide (x ∈ seen) || bool_decide (hd = x)).
  { intros x. rewrite <- bool_decide_or. apply bool_decide_ext. set_solver. }
  by rewrite !Hmem.
Qed.

(** The two headers, case by case on their include guards. *)
Lemma CDarwinShim_h_again (t : tu) :
  "CDARWIN_SHIM_H" ∈ macros t -> CDarwinShim_h t = t.
Proof.
  intros Hg. unfold CDarwinShim_h, defined.
  by rewrite (bool_decide_eq_true_2 _ Hg).
Qed.

Lemma CDarwinShim_h_first (t : tu) :
  "CDARWIN_SHIM_H" ∉ macros t ->
  CDarwinShim_h t =
  if bool_decide ("__APPLE__" ∈ macros t)
  then TU ({["CDARWIN_SHIM_H"]} ∪ macros t)
          (sys_included t
             ++ ["sys/mman.h"; "sys/types.h"; "fcntl.h"; "unistd.h"; "dlfcn.h"])
          (functions t ++ CDarwinShim_functions)
  else TU ({["CDARWIN_SHIM_H"]} ∪ macros t) (sys_included t) (functions t).
Proof.
  intros Hg. unfold CDarwinShim_h, CDarwinShim_condition, defined.
  rewrite (bool_decide_eq_false_2 _ Hg).
  assert (Hc : bool_decide ("__APPLE__" ∈ macros (define "CDARWIN_SHIM_H" t))
               = bool_decide ("__APPLE__" ∈ macros t)).
  { apply bool_decide_ext. unfold define. simpl. set_solver. }
  rewrite Hc. destruct (bool_decide ("__APPLE__" ∈ macros t)); [|reflexivity].
  unfold define_function, include_sys, define. simpl.
  by rewrite <- !app_assoc.
Qed.

Lemma CPosixShim_h_again (t : tu) :
  "CPOSIX_SHIM_H" ∈ macros t -> CPosixShim_h t = t.
Proof.
  intros Hg. unfold CPosixShim_h, defined.
  by rewrite (bool_decide_eq_true_2 _ Hg).
Qed.

Lemma CPosixShim_h_first (t : tu) :
  "CPOSIX_SHIM_H" ∉ macros t ->
  CPosixShim_h t =
  if bool_decide ("__APPLE__" ∈ macros t) || bool_decide ("__linux__" ∈ macros t)
  then TU ({["CPOSIX_SHIM_H"]} ∪ macros t) (sys_included t ++ ["dlfcn.h"])
          (functions t ++ CPosixShim_functions)
  else TU ({["CPOSIX_SHIM_H"]} ∪ macros t) (sys_included t) (functions t).
Proof.
  intros Hg. unfold CPosixShim_h, CPosixShim_condition, defined.
  rewrite (bool_decide_eq_false_2 _ Hg).
  assert (Ha : bool_decide ("__APPLE__" ∈ macros (define "CPOSIX_SHIM_H" t))
               = bool_decide ("__APPLE__" ∈ macros t)).
  { apply bool_decide_ext. unfold define. simpl. set_solver. }
  assert (Hl : bool_decide ("__linux__" ∈ macros (define "CPOSIX_SHIM_H" t))
               = bool_decide ("__linux__" ∈ macros t)).
  { apply bool_decide_ext. unfold define. simpl. set_solver. }
  rewrite Ha, Hl.
  destruct (bool_decide ("__APPLE__" ∈ macros t) || bool_decide ("__linux__" ∈ macros t));
    [|reflexivity].
  unfold define_function, include_sys, define. simpl.
  by rewrite <- !app_assoc.
Qed.


(** Membership of a list of headers or of a set of macros extended by one. *)
Ltac member :=
  rewrite ?elem_of_app, ?list_elem_of_singleton, ?elem_of_union,
    ?elem_of_singleton;
  intuition (try discriminate; try congruence).

(** Including a header keeps the invariant. *)
Lemma tu_inv_include (p : platform) (seen : list header) (hd : header) (t : tu) :
  tu_inv p seen t -> tu_inv p (seen ++ [hd]) (include hd t).
Proof.
  intros (Ha & Hl & Hd & Hp & Hf). unfold tu_inv.
  rewrite interface_app. unfold interface in Hf.
  destruct hd; simpl.
  - destruct (decide ("CDARWIN_SHIM_H" ∈ macros t)) as [Hg|Hg].
    + rewrite (CDarwinShim_h_again _ Hg).
      rewrite (bool_decide_eq_true_2 _ (proj1 Hd Hg)) in *. simpl in *.
      rewrite orb_false_r.
      repeat split; try tauto; member.
    + rewrite (CDarwinShim_h_first _ Hg).
      rewrite (bool_decide_eq_false_2 (CDarwinShim ∈ seen)) in * by tauto.
      simpl in *. rewrite orb_false_r.
      rewrite (bool_decide_ext _ _ Ha).
      destruct (bool_decide (p = Darwin)); simpl.
      * repeat split; try tauto; member.
        rewrite Hf. apply (Permutation_app_comm _ CDarwinShim_functions).
      * repeat split; try tauto; member.
  - destruct (decide ("CPOSIX_SHIM_H" ∈ macros t)) as [Hg|Hg].
    + rewrite (CPosixShim_h_again _ Hg).
      rewrite (bool_decide_eq_true_2 _ (proj1 Hp Hg)) in *. simpl in *.
      rewrite orb_false_r.
      repeat split; try tauto; member.
    + rewrite (CPosixShim_h_first _ Hg).
      rewrite (bool_decide_eq_false_2 (CPosixShim ∈ seen)) in * by tauto.
      simpl in *. rewrite orb_false_r, app_nil_r in *.
      assert (Hc : bool_decide ("__APPLE__" ∈ macros t)
                   || bool_decide ("__linux__" ∈ macros t)
                   = bool_decide (p <> Unsupported)).
      { rewrite <- bool_decide_or. apply bool_decide_ext.
        rewrite Ha, Hl. destruct p; naive_solver. }
      rewrite Hc.
      destruct (bool_decide (p <> Unsupported)); simpl.
      * repeat split; try tauto; member.
        by rewrite Hf.
      * repeat split; try tauto; member.
        by rewrite app_nil_r.
Qed.

Lemma tu_inv_fold (p : platform) (hs seen : list header) (t : tu) :
  tu_inv p seen t ->
  tu_inv p (seen ++ hs) (fold_left (fun t hd => include hd t) hs t).
Proof.
  revert seen t. induction hs as [|hd hs IH]; intros seen t Hinv; simpl.
  - by rewrite app_nil_r.
  - rewrite (assoc_L (++) seen [hd] hs : seen ++ hd :: hs = (seen ++ [hd]) ++ hs).
    apply IH, tu_inv_include, Hinv.
Qed.

Lemma tu_inv_compile (p : platform) (hs : list header) :
  tu_inv p hs (compile p hs).
Proof. apply (tu_inv_fold p hs []), tu_inv_start. Qed.

(** The preprocessed unit defines the functions of the interface. *)
Lemma compile_interface (p : platform) (hs : list header) :
  functions (compile p hs) ≡ₚ interface p hs.
Proof. apply tu_inv_compile. Qed.

Lemma interface_NoDup (p : platform) (hs : list header) : NoDup (interface p hs).
Proof.
  unfold interface.
  destruct (bool_decide (CDarwinShim ∈ hs) && bool_decide (p = Darwin));
    destruct (bool_decide (CPosixShim ∈ hs) && bool_decide (p <> Unsupported));
    compute_done.
Qed.

Lemma elem_of_compile (p : platform) (hs : list header) (e : entry) :
  e ∈ functions (compile p hs) <-> e ∈ interface p hs.
Proof. by rewrite compile_interface. Qed.

(** Including a header a second time changes nothing. *)
Lemma include_idempotent (hd : header) (t : tu) :
  include hd (include hd t) = include hd t.
Proof.
  destruct hd; simpl.
  - destruct (decide ("CDARWIN_SHIM_H" ∈ macros t)) as [Hg|Hg].
    + by rewrite !(CDarwinShim_h_again _ Hg).
    + apply CDarwinShim_h_again. rewrite (CDarwinShim_h_first _ Hg).
      destruct (bool_decide ("__APPLE__" ∈ macros t)); simpl; member.
  - destruct (decide ("CPOSIX_SHIM_H" ∈ macros t)) as [Hg|Hg].
    + by rewrite !(CPosixShim_h_again _ Hg).
    + apply CPosixShim_h_again. rewrite (CPosixShim_h_first _ Hg).
      destruct (bool_decide ("__APPLE__" ∈ macros t)
                || bool_decide ("__linux__" ∈ macros t)); simpl; member.
Qed.

Lemma resolve_compile (p : platform) (hs : list header) (e : entry) :
  resolve (compile p hs) (entry_name e)
  = if bool_decide (e ∈ interface p hs) then Some e else None.
Proof.
  rewrite resolve_defined.
  by rewrite (bool_decide_ext _ _ (elem_of_compile p hs e)).
Qed.

Lemma interface_Linux (hs : list header) :
  interface Linux hs
  = if bool_decide (CPosixShim ∈ hs) then CPosixShim_functions else [].
Proof.
  unfold interface. rewrite andb_false_r. simpl.
  by destruct (bool_decide (CPosixShim ∈ hs)).
Qed.

(** C3.  In a translation unit for Linux, whichever of the two headers it
    includes and however often, none of [swift_shm_open], [swift_fork],
    [swift_RTLD_MAIN_ONLY], [swift_RTLD_FIRST] is defined, and each of these
    names is an undeclared identifier at build time; [swift_RTLD_DEFAULT] and
    [swift_RTLD_NEXT] resolve to their functions exactly when the POSIX header
    is included. *)
Theorem darwin_only_absent_on_linux (hs : list header) :
  let t := compile Linux hs in
  Forall (fun e => e ∉ functions t) CDarwinShim_functions
  /\ resolve t "swift_shm_open" = None
  /\ resolve t "swift_fork" = None
  /\ resolve t "swift_RTLD_MAIN_ONLY" = None
  /\ resolve t "swift_RTLD_FIRST" = None
  /\ resolve t "swift_RTLD_DEFAULT"
     = (if bool_decide (CPosixShim ∈ hs) then Some Swift_RTLD_DEFAULT else None)
  /\ resolve t "swift_RTLD_NEXT"
     = (if bool_decide (CPosixShim ∈ hs) then Some Swift_RTLD_NEXT else None).
Proof.
  intros t. unfold t. split.
  - apply Forall_forall. intros e He. rewrite elem_of_compile, interface_Linux.
    destruct (bool_decide (CPosixShim ∈ hs)); revert He; unfold CDarwinShim_functions,
      CPosixShim_functions; rewrite ?elem_of_cons, ?elem_of_nil;
      intuition (subst; discriminate).
  - change "swift_shm_open" with (entry_name Swift_shm_open).
    change "swift_fork" with (entry_name Swift_fork).
    change "swift_RTLD_MAIN_ONLY" with (entry_name Swift_RTLD_MAIN_ONLY).
    change "swift_RTLD_FIRST" with (entry_name Swift_RTLD_FIRST).
    change "swift_RTLD_DEFAULT" with (entry_name Swift_RTLD_DEFAULT).
    change "swift_RTLD_NEXT" with (entry_name Swift_RTLD_NEXT).
    rewrite !resolve_compile, interface_Linux.
    destruct (bool_decide (CPosixShim ∈ hs)); repeat split.
Qed.

(** C10.  The two headers compose.  The six names are pairwise distinct and
    all begin with [swift_]; both platform conditions hold together exactly
    when the Darwin one holds, which among the platforms is on Darwin alone;
    on every platform, whatever is included and however often, no function
    is defined twice; on Darwin a unit that includes both headers defines
    the six functions; and including a header a second time leaves the
    translation unit as it was. *)
Theorem headers_compose :
  NoDup (entry_name <$> all_entries)
  /\ Forall (fun e => String.prefix "swift_" (entry_name e) = true) all_entries
  /\ (forall t : tu,
         CDarwinShim_condition t && CPosixShim_condition t = CDarwinShim_condition t)
  /\ (forall p : platform,
         CDarwinShim_condition (compile p []) && CPosixShim_condition (compile p [])
         = true <-> p = Darwin)
  /\ (forall (p : platform) (hs : list header), NoDup (functions (compile p hs)))
  /\ (forall hs : list header,
         CDarwinShim ∈ hs -> CPosixShim ∈ hs ->
         functions (compile Darwin hs) ≡ₚ all_entries)
  /\ (forall (hd : header) (t : tu), include hd (include hd t) = include hd t).
Proof.
  split; [compute_done |].
  split; [by repeat constructor |].
  split.
  { intros t. unfold CPosixShim_condition, CDarwinShim_condition.
    by destruct (defined "__APPLE__" t), (defined "__linux__" t). }
  split.
  { intros p. destruct p; split; first [done | discriminate]. }
  split.
  { intros p hs. rewrite compile_interface. apply interface_NoDup. }
  split.
  { intros hs Hd Hp. rewrite compile_interface. unfold interface.
    by rewrite !bool_decide_eq_true_2. }
  apply include_idempotent.
Qed.

(** C6.  On a platform whose translation unit defines both
    [swift_RTLD_DEFAULT] and [swift_RTLD_NEXT], the platform has a <dlfcn.h>,
    the two functions return different values, and each returns the same
    value at every one of [n] successive calls. *)
Theorem default_and_next_differ (p : platform) (hs : list header) (os : OS)
    (n : nat) (self : pid) (w : world os) :
  resolve (compile p hs) "swift_RTLD_DEFAULT" = Some Swift_RTLD_DEFAULT ->
  resolve (compile p hs) "swift_RTLD_NEXT" = Some Swift_RTLD_NEXT ->
  exists d : dlfcn_h,
    dlfcn_of p = Some d
    /\ returns (run os (swift_RTLD_DEFAULT d) self w)
       <> returns (run os (swift_RTLD_NEXT d) self w)
    /\ run os (call_many (swift_RTLD_DEFAULT d) n) self w
       = Outcome [(self, replicate n (RTLD_DEFAULT d))] w []
    /\ run os (call_many (swift_RTLD_NEXT d) n) self w
       = Outcome [(self, replicate n (RTLD_NEXT d))] w [].
Proof.
  change "swift_RTLD_DEFAULT" with (entry_name Swift_RTLD_DEFAULT).
  change "swift_RTLD_NEXT" with (entry_name Swift_RTLD_NEXT).
  rewrite !resolve_compile. intros Hdef _.
  assert (Hp : p <> Unsupported).
  { intros ->. unfold interface in Hdef. rewrite !andb_false_r in Hdef.
    discriminate Hdef. }
  destruct p; [| |done]; eexists; (split; [reflexivity |]);
    (split; [simpl; intros [=]|]);
    split; apply run_call_many_ret.
Qed.

Lemma default_and_next_differ_witness :
  resolve (compile Linux [CPosixShim]) "swift_RTLD_DEFAULT" = Some Swift_RTLD_DEFAULT
  /\ resolve (compile Linux [CPosixShim]) "swift_RTLD_NEXT" = Some Swift_RTLD_NEXT
  /\ exists d : dlfcn_h,
      dlfcn_of Linux = Some d
      /\ returns (run (ref_os darwin_headers) (swift_RTLD_DEFAULT d) 1 ref_boot)
         <> returns (run (ref_os darwin_headers) (swift_RTLD_NEXT d) 1 ref_boot)
      /\ run (ref_os darwin_headers) (call_many (swift_RTLD_DEFAULT d) 2) 1 ref_boot
         = Outcome [(1, replicate 2 (RTLD_DEFAULT d))] ref_boot []
      /\ run (ref_os darwin_headers) (call_many (swift_RTLD_NEXT d) 2) 1 ref_boot
         = Outcome [(1, replicate 2 (RTLD_NEXT d))] ref_boot [].
Proof.
  split; [reflexivity | split; [reflexivity |]].
  apply (default_and_next_differ Linux [CPosixShim]); reflexivity.
Defined.

Lemma headers_compose_witness :
  functions (compile Darwin [CPosixShim; CDarwinShim; CPosixShim]) ≡ₚ all_entries.
Proof.
  destruct headers_compose as (_ & _ & _ & _ & _ & Hsix & _).
  apply Hsix; rewrite !elem_of_cons; auto.
Defined.

(** ** The definitions at concrete inputs *)

Example fork_in_a_full_system :
  run (ref_os darwin_headers) swift_fork 1 ref_full
  = Outcome [(1, -1)] (snd (ref_fail ref_EAGAIN 1 ref_full)) [Ev 1 fork].
Proof. reflexivity. Qed.

Example mode_above_mode_t :
  trace (run (ref_os darwin_headers)
           (swift_shm_open darwin_headers (Some "/test-seg") 514 (65536 + 384))
           1 ref_boot)
  = [Ev 1 (shm_open (Some "/test-seg") 514 384)].
Proof. reflexivity. Qed.

Example null_name_is_forwarded :
  trace (run (ref_os darwin_headers)
           (swift_shm_open darwin_headers None 514 384) 1 ref_boot)
  = [Ev 1 (shm_open None 514 384)].
Proof. reflexivity. Qed.

Example open_without_create :
  returns (run (ref_os darwin_headers)
             (swift_shm_open darwin_headers (Some "/test-seg") 2 384) 1 ref_boot)
  = [(1, -1)].
Proof. reflexivity. Qed.

Example linux_unit :
  functions (compile Linux [CDarwinShim; CPosixShim; CDarwinShim])
  = [Swift_RTLD_DEFAULT; Swift_RTLD_NEXT]
  /\ sys_included (compile Linux [CDarwinShim; CPosixShim; CDarwinShim])
     = ["dlfcn.h"].
Proof. split; reflexivity. Qed.

Example darwin_unit :
  functions (compile Darwin [CPosixShim; CDarwinShim; CPosixShim])
  = CPosixShim_functions ++ CDarwinShim_functions.
Proof. reflexivity. Qed.

Example unsupported_unit :
  functions (compile Unsupported [CDarwinShim; CPosixShim]) = [].
Proof. reflexivity. Qed.

Example darwin_sentinels :
  dlfcn_of Darwin = Some (Dlfcn 18446744073709551614 18446744073709551615)
  /\ RTLD_MAIN_ONLY darwin_headers = 18446744073709551611.
Proof. split; reflexivity. Qed.

(** ** The headers in any translation unit *)

(** Each header in one equation: nothing when its guard is defined;
    otherwise the guard, and under the platform condition the system headers
    and the functions. *)
Lemma include_unfold (hd : header) (t : tu) :
  include hd t =
  if defined (guard hd) t then t
  else if condition hd t
       then TU ({[guard hd]} ∪ macros t) (sys_included t ++ system_headers hd)
               (functions t ++ functions_of hd)
       else TU ({[guard hd]} ∪ macros t) (sys_included t) (functions t).
Proof.
  unfold defined.
  destruct hd; simpl;
    match goal with
    | |- context [bool_decide (?g ∈ macros t)] =>
        destruct (decide (g ∈ macros t)) as [Hg|Hg]
    end.
  - by rewrite (bool_decide_eq_true_2 _ Hg), CDarwinShim_h_again.
  - by rewrite (bool_decide_eq_false_2 _ Hg), CDarwinShim_h_first.
  - by rewrite (bool_decide_eq_true_2 _ Hg), CPosixShim_h_again.
  - by rewrite (bool_decide_eq_false_2 _ Hg), CPosixShim_h_first.
Qed.

Lemma macros_include (hd : header) (t : tu) :
  macros (include hd t) = {[guard hd]} ∪ macros t.
Proof.
  rewrite include_unfold. unfold defined. case_bool_decide as Hg.
  - apply leibniz_equiv. intros x. rewrite elem_of_union, elem_of_singleton.
    split; [by right | by intros [->|?]].
  - by destruct (condition hd t).
Qed.

(** A header leaves the other header's guard and both platform macros as
    they were. *)
Lemma defined_include (m : string) (hd : header) (t : tu) :
  m <> guard hd -> defined m (include hd t) = defined m t.
Proof.
  intros Hm. unfold defined. rewrite macros_include. apply bool_decide_ext.
  rewrite elem_of_union, elem_of_singleton. tauto.
Qed.

Lemma condition_include (hd' hd : header) (t : tu) :
  condition hd' (include hd t) = condition hd' t.
Proof.
  destruct hd'; simpl; unfold CDarwinShim_condition, CPosixShim_condition;
    rewrite !defined_include; by destruct hd.
Qed.

Lemma defined_guard_include (hd' hd : header) (t : tu) :
  defined (guard hd') (include hd t)
  = bool_decide (hd' = hd) || defined (guard hd') t.
Proof.
  destruct (decide (hd' = hd)) as [->|Hne].
  - rewrite bool_decide_eq_true_2 by done. simpl.
    unfold defined. rewrite macros_include. apply bool_decide_eq_true_2.
    apply elem_of_union_l, elem_of_singleton. reflexivity.
  - rewrite (bool_decide_eq_false_2 _ Hne). simpl.
    apply defined_include. by destruct hd', hd.
Qed.

(** What a list of inclusions adds to a list-valued field of the unit
    (the functions, or the system headers), given what one inclusion adds. *)
Lemma include_all_field {A : Type} (field : tu -> list A)
    (part : header -> list A) :
  (forall hd t,
      field (include hd t)
      = field t ++ (if negb (defined (guard hd) t) && condition hd t
                    then part hd else [])) ->
  forall hs t,
    field (include_all hs t)
    ≡ₚ field t ++ contribution part hs t CDarwinShim
               ++ contribution part hs t CPosixShim.
Proof.
  intros Hfield hs. induction hs as [|hd hs IH]; intros t.
  - unfold contribution. simpl. by rewrite app_nil_r.
  - change (include_all (hd :: hs) t) with (include_all hs (include hd t)).
    rewrite IH, Hfield. unfold contribution.
    rewrite !defined_guard_include, !condition_include.
    assert (Hmem : forall x : header,
               bool_decide (x ∈ hd :: hs)
               = bool_decide (x = hd) || bool_decide (x ∈ hs)).
    { intros x. rewrite <- bool_decide_or. apply bool_decide_ext, elem_of_cons. }
    rewrite !Hmem.
    destruct hd; simpl guard; simpl condition;
      rewrite ?(bool_decide_eq_true_2 (CDarwinShim = CDarwinShim)),
        ?(bool_decide_eq_true_2 (CPosixShim = CPosixShim)),
        ?(bool_decide_eq_false_2 (CDarwinShim = CPosixShim)),
        ?(bool_decide_eq_false_2 (CPosixShim = CDarwinShim)) by done;
      destruct (bool_decide (CDarwinShim ∈ hs)), (bool_decide (CPosixShim ∈ hs)),
        (defined "CDARWIN_SHIM_H" t), (defined "CPOSIX_SHIM_H" t),
        (CDarwinShim_condition t), (CPosixShim_condition t);
      simpl; rewrite ?app_nil_r, <- ?app_assoc;
      first [reflexivity
            | apply Permutation_app_head, Permutation_app_comm].
Qed.

Lemma functions_include (hd : header) (t : tu) :
  functions (include hd t)
  = functions t ++ (if negb (defined (guard hd) t) && condition hd t
                    then functions_of hd else []).
Proof.
  rewrite include_unfold.
  destruct (defined (guard hd) t), (condition hd t); simpl;
    by rewrite ?app_nil_r.
Qed.

Lemma sys_included_include (hd : header) (t : tu) :
  sys_included (include hd t)
  = sys_included t ++ (if negb (defined (guard hd) t) && condition hd t
                       then system_headers hd else []).
Proof.
  rewrite include_unfold.
  destruct (defined (guard hd) t), (condition hd t); simpl;
    by rewrite ?app_nil_r.
Qed.

Lemma macros_include_all (hs : list header) (t : tu) :
  macros (include_all hs t) = list_to_set (guard <$> hs) ∪ macros t.
Proof.
  revert t. induction hs as [|hd hs IH]; intros t.
  - simpl. by rewrite (left_id_L ∅ (∪)).
  - change (include_all (hd :: hs) t) with (include_all hs (include hd t)).
    rewrite IH, macros_include. simpl.
    apply leibniz_equiv. intros x. rewrite !elem_of_union. tauto.
Qed.

Lemma contribution_ext {A : Type} (part : header -> list A)
    (hs hs' : list header) (t : tu) (hd : header) :
  (forall x : header, x ∈ hs <-> x ∈ hs') ->
  contribution part hs t hd = contribution part hs' t hd.
Proof.
  intros Hsame. unfold contribution.
  by rewrite (bool_decide_ext _ _ (Hsame hd)).
Qed.

(** X1.  Which headers are included matters, not their order or how often:
    two lists of inclusions with the same headers, applied to the same
    translation unit (whatever it already holds), leave the same macros
    defined and the same functions and system headers, up to order. *)
Theorem inclusion_order_irrelevant (hs hs' : list header) (t : tu) :
  (forall hd : header, hd ∈ hs <-> hd ∈ hs') ->
  macros (include_all hs t) = macros (include_all hs' t)
  /\ functions (include_all hs t) ≡ₚ functions (include_all hs' t)
  /\ sys_included (include_all hs t) ≡ₚ sys_included (include_all hs' t).
Proof.
  intros Hsame. split; [|split].
  - rewrite !macros_include_all. f_equal.
    apply leibniz_equiv. intros x.
    rewrite !elem_of_list_to_set, !list_elem_of_fmap.
    split; intros (hd & -> & Hin); exists hd; (split; [reflexivity|]);
      by apply Hsame.
  - rewrite !(include_all_field functions functions_of functions_include).
    by rewrite !(contribution_ext _ hs hs' t _ Hsame).
  - rewrite !(include_all_field sys_included system_headers sys_included_include).
    by rewrite !(contribution_ext _ hs hs' t _ Hsame).
Qed.

Lemma inclusion_order_irrelevant_witness :
  let hs := [CDarwinShim; CPosixShim; CDarwinShim] in
  let hs' := [CPosixShim; CDarwinShim] in
  let t := TU (predefined Darwin) [] [] in
  macros (include_all hs t) = macros (include_all hs' t)
  /\ functions (include_all hs t) ≡ₚ functions (include_all hs' t)
  /\ sys_included (include_all hs t) ≡ₚ sys_included (include_all hs' t).
Proof.
  apply inclusion_order_irrelevant.
  intros hd. rewrite !elem_of_cons, !elem_of_nil. destruct hd; tauto.
Defined.

(** X2.  On every platform and for every list of inclusions, the name of a
    function resolves to it exactly when the header that defines it is
    included and that header's platform condition holds on the platform;
    otherwise the name is undeclared.  So on Darwin a unit that includes one
    header gets none of the other header's functions, and on an unsupported
    platform no name resolves. *)
Theorem resolve_by_platform_and_headers (p : platform) (hs : list header)
    (e : entry) :
  resolve (compile p hs) (entry_name e)
  = if bool_decide (header_of e ∈ hs) && condition (header_of e) (compile p [])
    then Some e else None.
Proof.
  rewrite resolve_compile. unfold interface.
  destruct e, p; simpl header_of;
    destruct (bool_decide (CDarwinShim ∈ hs)), (bool_decide (CPosixShim ∈ hs));
    reflexivity.
Qed.

Lemma contribution_compile {A : Type} (part : header -> list A)
    (p : platform) (hs : list header) (hd : header) :
  contribution part hs (compile p []) hd
  = if bool_decide (hd ∈ hs) && condition hd (compile p []) then part hd else [].
Proof.
  unfold contribution.
  by destruct hd, p, (bool_decide (_ ∈ hs)).
Qed.

(** X3.  The system headers a unit pulls in through the shims, by platform
    and inclusions: the five of the Darwin header only on Darwin, <dlfcn.h>
    of the POSIX header only on Darwin and Linux.  On an unsupported platform
    the two headers are inert, no system header is included and no function
    is defined, so they can be included anywhere; on Linux the only system
    header ever included is <dlfcn.h>. *)
Theorem system_headers_by_platform (p : platform) (hs : list header) :
  sys_included (compile p hs)
  ≡ₚ (if bool_decide (CDarwinShim ∈ hs) && bool_decide (p = Darwin)
      then system_headers CDarwinShim else [])
     ++ (if bool_decide (CPosixShim ∈ hs) && bool_decide (p <> Unsupported)
         then system_headers CPosixShim else [])
  /\ sys_included (compile Unsupported hs) = []
  /\ functions (compile Unsupported hs) = []
  /\ Forall (fun f => f = "dlfcn.h") (sys_included (compile Linux hs)).
Proof.
  assert (Hsys : forall q : platform,
             sys_included (compile q hs)
             ≡ₚ (if bool_decide (CDarwinShim ∈ hs) && bool_decide (q = Darwin)
                 then system_headers CDarwinShim else [])
                ++ (if bool_decide (CPosixShim ∈ hs) && bool_decide (q <> Unsupported)
                    then system_headers CPosixShim else [])).
  { intros q. change (compile q hs) with (include_all hs (compile q [])).
    rewrite (include_all_field sys_included system_headers sys_included_include).
    rewrite !contribution_compile.
    by destruct q, (bool_decide (CDarwinShim ∈ hs)), (bool_decide (CPosixShim ∈ hs)). }
  split; [apply Hsys |]. split; [|split].
  - apply Permutation_nil_r. rewrite (Hsys Unsupported).
    by rewrite !andb_false_r.
  - apply Permutation_nil_r. rewrite compile_interface. unfold interface.
    by rewrite !andb_false_r.
  - rewrite (Hsys Linux), andb_false_r. simpl.
    destruct (bool_decide (CPosixShim ∈ hs)); simpl; by repeat constructor.
Qed.

Lemma filter_functions_of_other (hd x : header) :
  x <> hd ->
  filter (fun e => header_of e = hd) (functions_of x) = [].
Proof. by destruct hd, x. Qed.

(** X4.  A translation unit in which the guard macro of a header is already
    defined gets nothing from that header, whatever is included afterwards
    and on whatever platform: the functions of that header in the unit stay
    the ones it had. *)
Theorem guard_defined_suppresses (hd : header) (hs : list header) (t : tu) :
  guard hd ∈ macros t ->
  filter (fun e => header_of e = hd) (functions (include_all hs t))
  = filter (fun e => header_of e = hd) (functions t).
Proof.
  revert t. induction hs as [|x hs IH]; intros t Hg; [reflexivity |].
  change (include_all (x :: hs) t) with (include_all hs (include x t)).
  rewrite IH.
  - rewrite functions_include, filter_app.
    destruct (decide (x = hd)) as [->|Hne].
    + unfold defined. rewrite (bool_decide_eq_true_2 _ Hg). simpl.
      by rewrite app_nil_r.
    + destruct (negb (defined (guard x) t) && condition x t).
      * by rewrite (filter_functions_of_other hd x Hne), app_nil_r.
      * by rewrite app_nil_r.
  - rewrite macros_include. by apply elem_of_union_r.
Qed.

Lemma guard_defined_suppresses_witness :
  guard CDarwinShim ∈ macros darwin_unit_with_guard
  /\ filter (fun e => header_of e = CDarwinShim)
       (functions (include_all [CDarwinShim; CPosixShim] darwin_unit_with_guard))
     = [].
Proof.
  assert (Hg : guard CDarwinShim ∈ macros darwin_unit_with_guard).
  { apply elem_of_union_l, elem_of_singleton. reflexivity. }
  split; [exact Hg |].
  exact (guard_defined_suppresses CDarwinShim [CDarwinShim; CPosixShim]
           darwin_unit_with_guard Hg).
Defined.


(** ** Repeated calls of a wrapper *)

(** A forwarding body called [n] times, when the primitive returns once. *)
Lemma forwarded_n_times (os : OS) (c : call Z) (n : nat) (self : pid)
    (w : world os) :
  returns_once os c ->
  let o := run os (call_many (r ← perform c; mret r) n) self w in
  trace o = replicate n (Ev self c)
  /\ final o = direct_many os c n self w
  /\ exists rs : list Z, returns o = [(self, rs)] /\ length rs = n.
Proof.
  intros Honce. set (f := r ← perform c; mret r). revert w.
  induction n as [|n IH]; intros w.
  - simpl. split; [reflexivity |]. split; [reflexivity |]. by exists [].
  - change (call_many f (S n))
      with (Call c (fun x : Z => bind (call_many f n) (fun xs => Ret (x :: xs)))).
    cbv zeta. rewrite run_call.
    destruct (Honce self w) as [r Hr]. rewrite Hr.
    destruct (IH (snd (exec os c self w))) as (Htr & Hfin & rs & Hrs & Hlen).
    cbn [fold_left]. unfold resume. cbn [fst snd final returns trace].
    rewrite (run_bind_ret os (fun xs => r :: xs)).
    cbn [final returns trace]. rewrite Htr, Hfin, Hrs.
    split; [reflexivity |]. split; [reflexivity |].
    exists (r :: rs). split; [reflexivity |]. simpl. by rewrite Hlen.
Qed.

(** X6.  On a system whose [shm_open] returns once to its caller, [n]
    calls of [swift_shm_open] in a row make exactly [n] calls of [shm_open],
    each by the caller with the converted arguments, leave the system in the
    state that [n] direct calls leave it in, and return [n] values to the
    caller alone: nothing is retried, skipped or cached. *)
Theorem swift_shm_open_n_times (os : OS) (h : darwin_h) (name : cstr)
    (oflag mode : Z) (n : nat) (self : pid) (w : world os) :
  let c := shm_open name (to_int oflag) (to_mode_t h mode) in
  returns_once os c ->
  let o := run os (call_many (swift_shm_open h name oflag mode) n) self w in
  trace o = replicate n (Ev self c)
  /\ final o = direct_many os c n self w
  /\ exists rs : list Z, returns o = [(self, rs)] /\ length rs = n.
Proof.
  intros c Honce. exact (forwarded_n_times os c n self w Honce).
Qed.

Lemma ref_os_shm_open_once (h : darwin_h) (name : cstr) (oflag mode : Z) :
  returns_once (ref_os h) (shm_open name oflag mode).
Proof.
  intros self w. simpl. unfold ref_shm_open.
  destruct name as [n|]; [|by eexists].
  destruct (bool_decide (n ∈ ref_shm w)),
    (has_flag (O_CREAT h) oflag), (has_flag (O_EXCL h) oflag);
    by eexists.
Qed.

Lemma swift_shm_open_n_times_witness :
  let os := ref_os darwin_headers in
  let c := shm_open (Some "/test-seg") 514 384 in
  let o := run os (call_many (swift_shm_open darwin_headers (Some "/test-seg") 514 384) 3)
               1 ref_boot in
  trace o = replicate 3 (Ev 1 c)
  /\ final o = direct_many os c 3 1 ref_boot
  /\ exists rs : list Z, returns o = [(1, rs)] /\ length rs = 3%nat.
Proof.
  apply (swift_shm_open_n_times (ref_os darwin_headers) darwin_headers
           (Some "/test-seg") 514 384 3 1 ref_boot).
  apply ref_os_shm_open_once.
Defined.

(** X7.  Whatever integers are supplied as oflag and mode, the one call
    [swift_shm_open] makes passes an oflag within [int] and a mode within
    [mode_t], each congruent to the supplied value modulo the width of its
    type: a negative mode, or one above the range, never reaches
    [shm_open]. *)
Theorem swift_shm_open_arguments_in_range (os : OS) (h : darwin_h)
    (name : cstr) (oflag mode : Z) (self : pid) (w : world os) :
  0 <= mode_t_bits h ->
  exists oflag' mode' : Z,
    trace (run os (swift_shm_open h name oflag mode) self w)
      = [Ev self (shm_open name oflag' mode')]
    /\ in_int oflag' /\ in_mode_t h mode'
    /\ (oflag' - oflag) mod 2 ^ 32 = 0
    /\ (mode' - mode) mod 2 ^ mode_t_bits h = 0.
Proof.
  intros Hbits. exists (to_int oflag), (to_mode_t h mode).
  assert (Hpow : 0 < 2 ^ mode_t_bits h) by (apply Z.pow_pos_nonneg; lia).
  split.
  { unfold swift_shm_open. by rewrite run_perform. }
  split; [apply to_int_range |].
  split.
  { unfold in_mode_t, in_unsigned, to_mode_t, to_unsigned.
    apply Z.mod_pos_bound, Hpow. }
  split.
  - unfold to_int.
    replace ((oflag + 2 ^ 31) mod 2 ^ 32 - 2 ^ 31 - oflag)
      with ((oflag + 2 ^ 31) mod 2 ^ 32 - (oflag + 2 ^ 31)) by lia.
    rewrite Zminus_mod, Z.mod_mod, Z.sub_diag by lia. reflexivity.
  - unfold to_mode_t, to_unsigned.
    rewrite Zminus_mod, Z.mod_mod, Z.sub_diag by lia. reflexivity.
Qed.

Lemma swift_shm_open_arguments_in_range_witness :
  0 <= mode_t_bits darwin_headers
  /\ exists oflag' mode' : Z,
      trace (run (ref_os darwin_headers)
               (swift_shm_open darwin_headers (Some "/test-seg") 514 (-1))
               1 ref_boot)
        = [Ev 1 (shm_open (Some "/test-seg") oflag' mode')]
      /\ in_int oflag' /\ in_mode_t darwin_headers mode'
      /\ (oflag' - 514) mod 2 ^ 32 = 0
      /\ (mode' - -1) mod 2 ^ mode_t_bits darwin_headers = 0.
Proof.
  split; [in_range |].
  apply (swift_shm_open_arguments_in_range (ref_os darwin_headers)
           darwin_headers (Some "/test-seg") 514 (-1) 1 ref_boot).
  in_range.
Defined.

(** ** More concrete inputs *)

Example guard_defined_before_inclusion :
  functions (include_all [CDarwinShim; CPosixShim] darwin_unit_with_guard)
  = CPosixShim_functions
  /\ sys_included (include_all [CDarwinShim; CPosixShim] darwin_unit_with_guard)
     = ["dlfcn.h"].
Proof. split; reflexivity. Qed.

Example darwin_with_one_header :
  resolve (compile Darwin [CPosixShim]) "swift_fork" = None
  /\ resolve (compile Darwin [CDarwinShim]) "swift_RTLD_NEXT" = None
  /\ resolve (compile Darwin [CDarwinShim]) "swift_fork" = Some Swift_fork.
Proof. repeat split. Qed.

Example negative_mode :
  trace (run (ref_os darwin_headers)
           (swift_shm_open darwin_headers (Some "/test-seg") 514 (-1)) 1 ref_boot)
  = [Ev 1 (shm_open (Some "/test-seg") 514 65535)].
Proof. reflexivity. Qed.

Example three_opens :
  returns (run (ref_os darwin_headers)
             (call_many (swift_shm_open darwin_headers (Some "/test-seg") 514 384) 3)
             1 ref_boot)
  = [(1, [3; 4; 5])].
Proof. reflexivity. Qed.
